(** * gem5 [base/cache/cache_entry.hh]: the tagged cache entry

    A shallow embedding of [gem5::CacheEntry] and the properties of its
    validity/tag state machine.

    The class has three data members ([extractTag], [valid], [tag]); its
    member functions read and assign them and [setValid] asserts.  Member
    functions are therefore embedded in a state-and-failure monad over the
    entry: a method takes the entry it is called on and either completes
    with a return value and the entry as it left it, or aborts.

    - [assert] is embedded as executed, i.e. for builds that do not define
      [NDEBUG].
    - The state inherited from [ReplaceableEntry] is read only by [print]
      and written by none of the members below; it is left out.
    - The members are virtual; what is embedded is [CacheEntry]'s own
      definition of each, as run on an object whose dynamic type is
      [CacheEntry].
    - [std::function<Addr(Addr)>] is embedded as a total function on
      addresses: the callable is non-empty and has no effects. *)

From Stdlib Require Import ZArith Bool Lia List.
Import ListNotations.

Local Open Scope Z_scope.

(** ** Addresses ([base/types.hh]) *)

Definition Addr : Type := Z.

(** Modelled from the spec: [base/types.hh] is not part of the sources at
    hand.  [Addr] is the address-sized unsigned integer (64 bits wide in
    gem5) and [MaxAddr] is the maximum representable address value, used as
    the sentinel tag of an invalid entry. *)
Definition addr_bits : Z := 64.

(** Modelled from the spec: the declaration of [MaxAddr] in
    [base/types.hh] is not at hand; the spec describes it as the maximum
    representable address value. *)
Definition MaxAddr : Addr := 2 ^ addr_bits - 1.

(** The values an [Addr] can hold. *)
Definition is_addr (a : Z) : Prop := 0 <= a <= MaxAddr.

(** ** The entry *)

Definition TagExtractor : Type := Addr -> Addr.

Record CacheEntry : Type := mkCacheEntry {
  extractTag : TagExtractor;  (* callback used to extract the tag *)
  valid : bool;               (* valid bit *)
  tag : Addr                  (* the entry's tag *)
}.

(** ** Methods: state passing with a fatal failure *)

Inductive Failure : Type :=
| InvariantViolation.   (* a failed [assert] *)

Inductive outcome (A : Type) : Type :=
| Done (a : A)
| Abort (f : Failure).

Arguments Done {A} a.
Arguments Abort {A} f.

Definition method (A : Type) : Type := CacheEntry -> outcome (A * CacheEntry).

Definition ret {A : Type} (a : A) : method A :=
  fun e => Done (a, e).

Definition bind {A B : Type} (m : method A) (k : A -> method B) : method B :=
  fun e =>
    match m e with
    | Done (a, e') => k a e'
    | Abort f => Abort f
    end.

Notation "x <- m ;; k" := (bind m (fun x => k))
  (at level 61, m at next level, right associativity).
Notation "m ;; k" := (bind m (fun _ => k))
  (at level 61, right associativity).

(** The value a method returns, and the entry it leaves behind. *)
Definition eval {A : Type} (m : method A) (e : CacheEntry) : outcome A :=
  match m e with
  | Done (a, _) => Done a
  | Abort f => Abort f
  end.

Definition exec {A : Type} (m : method A) (e : CacheEntry) : outcome CacheEntry :=
  match m e with
  | Done (_, e') => Done e'
  | Abort f => Abort f
  end.

(** Member reads, member assignments, the call through [extractTag], and
    [assert]. *)
Definition read {A : Type} (field : CacheEntry -> A) : method A :=
  fun e => Done (field e, e).

Definition assign_valid (b : bool) : method unit :=
  fun e => Done (tt, mkCacheEntry (extractTag e) b (tag e)).

Definition assign_tag (t : Addr) : method unit :=
  fun e => Done (tt, mkCacheEntry (extractTag e) (valid e) t).

Definition call_extractTag (addr : Addr) : method Addr :=
  fun e => Done (extractTag e addr, e).

Definition assert (b : bool) : method unit :=
  fun e => if b then Done (tt, e) else Abort InvariantViolation.

(** ** [CacheEntry]'s members *)

(** [CacheEntry(TagExtractor ext) : extractTag(ext), valid(false), tag(MaxAddr)] *)
Definition CacheEntry_new (ext : TagExtractor) : CacheEntry :=
  mkCacheEntry ext false MaxAddr.

(** [bool isValid() const { return valid; }] *)
Definition isValid : method bool := read valid.

(** [Addr getTag() const { return tag; }] *)
Definition getTag : method Addr := read tag.

(** [return isValid() && (getTag() == extractTag(addr));]
    The right operand of [&&] is evaluated only when the left one holds. *)
Definition match_ (addr : Addr) : method bool :=
  v <- isValid ;;
  if v then
    t <- getTag ;;
    x <- call_extractTag addr ;;
    ret (t =? x)
  else ret false.

(** [void setTag(Addr _tag) { tag = _tag; }] *)
Definition setTag (_tag : Addr) : method unit := assign_tag _tag.

(** [assert(!isValid()); valid = true;] *)
Definition setValid : method unit :=
  v <- isValid ;;
  assert (negb v) ;;
  assign_valid true.

(** [setValid(); setTag(extractTag(addr));] *)
Definition insert (addr : Addr) : method unit :=
  setValid ;;
  t <- call_extractTag addr ;;
  setTag t.

(** [valid = false; setTag(MaxAddr);] *)
Definition invalidate : method unit :=
  assign_valid false ;;
  setTag MaxAddr.

(** ** The entry as a state machine

    The public operations a tag array may invoke, and the entries that can
    arise from a constructed entry by invoking them. *)
Inductive call : Type :=
| CallIsValid
| CallGetTag
| CallMatch (addr : Addr)
| CallInsert (addr : Addr)
| CallInvalidate.

Definition perform (c : call) : CacheEntry -> outcome CacheEntry :=
  match c with
  | CallIsValid => exec isValid
  | CallGetTag => exec getTag
  | CallMatch addr => exec (match_ addr)
  | CallInsert addr => exec (insert addr)
  | CallInvalidate => exec invalidate
  end.

Inductive reachable (ext : TagExtractor) : CacheEntry -> Prop :=
| reach_new : reachable ext (CacheEntry_new ext)
| reach_call (c : call) (e e' : CacheEntry) :
    reachable ext e -> perform c e = Done e' -> reachable ext e'.

(** The extractor of the example scenario: block size 4. *)
Definition block4 : TagExtractor := fun a => Z.shiftr a 2.

(** ** Histories of calls

    What a tag array does to one entry over time: it issues public calls
    one after the other, and the first failed assertion ends the run. *)
Fixpoint run_calls (cs : list call) (e : CacheEntry) : outcome CacheEntry :=
  match cs with
  | [] => Done e
  | c :: cs' =>
      match perform c e with
      | Done e' => run_calls cs' e'
      | Abort f => Abort f
      end
  end.

(** The calls that are [const] members. *)
Definition is_observer (c : call) : bool :=
  match c with
  | CallIsValid | CallGetTag | CallMatch _ => true
  | CallInsert _ | CallInvalidate => false
  end.

(** The two-state machine INVALID/VALID on the valid bit alone: a fill is
    allowed only from INVALID, an invalidation from either state. *)
Definition protocol_step (v : bool) (c : call) : option bool :=
  match c with
  | CallInsert _ => if v then None else Some true
  | CallInvalidate => Some false
  | CallIsValid | CallGetTag | CallMatch _ => Some v
  end.

Fixpoint protocol (v : bool) (cs : list call) : option bool :=
  match cs with
  | [] => Some v
  | c :: cs' =>
      match protocol_step v c with
      | Some v' => protocol v' cs'
      | None => None
      end
  end.

Definition valid_of (o : outcome CacheEntry) : option bool :=
  match o with
  | Done e => Some (valid e)
  | Abort _ => None
  end.

(** The address whose fill is still live at the end of a history, given
    the one live at its start. *)
Fixpoint live_fill (cur : option Addr) (cs : list call) : option Addr :=
  match cs with
  | [] => cur
  | CallInsert a :: cs' => live_fill (Some a) cs'
  | CallInvalidate :: cs' => live_fill None cs'
  | (CallIsValid | CallGetTag | CallMatch _) :: cs' => live_fill cur cs'
  end.

(** The entry that holds the fill [f], or none. *)
Definition entry_holding (ext : TagExtractor) (f : option Addr) : CacheEntry :=
  match f with
  | Some a => mkCacheEntry ext true (ext a)
  | None => CacheEntry_new ext
  end.

(** * Properties *)

(** ** What each member does to an arbitrary entry *)

Lemma isValid_run (e : CacheEntry) : isValid e = Done (valid e, e).
Proof. reflexivity. Qed.

Lemma getTag_run (e : CacheEntry) : getTag e = Done (tag e, e).
Proof. reflexivity. Qed.

Lemma match_run (addr : Addr) (e : CacheEntry) :
  match_ addr e = Done (valid e && (tag e =? extractTag e addr), e).
Proof.
  unfold match_, bind. rewrite isValid_run.
  destruct (valid e); reflexivity.
Qed.

Lemma setValid_run (e : CacheEntry) :
  setValid e =
  if valid e then Abort InvariantViolation
  else Done (tt, mkCacheEntry (extractTag e) true (tag e)).
Proof.
  unfold setValid, bind. rewrite isValid_run.
  destruct (valid e); reflexivity.
Qed.

Lemma insert_run (addr : Addr) (e : CacheEntry) :
  insert addr e =
  if valid e then Abort InvariantViolation
  else Done (tt, mkCacheEntry (extractTag e) true (extractTag e addr)).
Proof.
  unfold insert, bind. rewrite setValid_run.
  destruct (valid e); reflexivity.
Qed.

Lemma invalidate_run (e : CacheEntry) :
  invalidate e = Done (tt, CacheEntry_new (extractTag e)).
Proof. reflexivity. Qed.

(** Sequencing after a method whose run is known. *)
Lemma eval_seq {A B : Type} (m : method A) (k : method B)
      (e e' : CacheEntry) (a : A) :
  m e = Done (a, e') -> eval (m ;; k) e = eval k e'.
Proof. intros H. unfold eval, bind. rewrite H. reflexivity. Qed.

Lemma exec_seq {A B : Type} (m : method A) (k : method B)
      (e e' : CacheEntry) (a : A) :
  m e = Done (a, e') -> exec (m ;; k) e = exec k e'.
Proof. intros H. unfold exec, bind. rewrite H. reflexivity. Qed.

(** ** Invariants of reachable entries *)

(** No operation assigns [extractTag] (I4). *)
Lemma perform_extractTag (c : call) (e e' : CacheEntry) :
  perform c e = Done e' -> extractTag e' = extractTag e.
Proof.
  destruct c; simpl; unfold exec.
  - rewrite isValid_run. now inversion 1.
  - rewrite getTag_run. now inversion 1.
  - rewrite match_run. now inversion 1.
  - rewrite insert_run. destruct (valid e); [discriminate|]. now inversion 1.
  - rewrite invalidate_run. now inversion 1.
Qed.

Lemma reachable_extractTag (ext : TagExtractor) (e : CacheEntry) :
  reachable ext e -> extractTag e = ext.
Proof.
  induction 1 as [|c e e' _ IH Hc].
  - reflexivity.
  - rewrite (perform_extractTag c e e' Hc). exact IH.
Qed.

(** An invalid reachable entry holds the sentinel tag. *)
Lemma reachable_invalid_tag (ext : TagExtractor) (e : CacheEntry) :
  reachable ext e -> valid e = false -> tag e = MaxAddr.
Proof.
  induction 1 as [|c e e' _ IH Hc]; [reflexivity|].
  destruct c; simpl in Hc; unfold exec in Hc.
  - rewrite isValid_run in Hc. inversion Hc; subst. exact IH.
  - rewrite getTag_run in Hc. inversion Hc; subst. exact IH.
  - rewrite match_run in Hc. inversion Hc; subst. exact IH.
  - rewrite insert_run in Hc. destruct (valid e); [discriminate|].
    inversion Hc; subst. simpl. discriminate.
  - rewrite invalidate_run in Hc. inversion Hc; subst. reflexivity.
Qed.

(** ** The testable properties *)

(** C1 (P2, insert sets validity and tag): on an entry constructed with the
    extractor [ext] and currently invalid, [insert a] completes, after which
    [isValid()] returns [true] and [getTag()] returns [ext a]. *)
Theorem insert_sets_valid_and_tag
        (ext : TagExtractor) (e : CacheEntry) (a : Addr) :
  reachable ext e ->
  valid e = false ->
  eval (insert a ;; isValid) e = Done true /\
  eval (insert a ;; getTag) e = Done (ext a).
Proof.
  intros Hr Hv.
  pose proof (insert_run a e) as Hi. rewrite Hv in Hi.
  rewrite (reachable_extractTag ext e Hr) in Hi.
  split.
  - rewrite (eval_seq _ _ _ _ _ Hi). reflexivity.
  - rewrite (eval_seq _ _ _ _ _ Hi). reflexivity.
Qed.

Lemma insert_sets_valid_and_tag_witness :
  eval (insert 4100 ;; isValid) (CacheEntry_new block4) = Done true /\
  eval (insert 4100 ;; getTag) (CacheEntry_new block4) = Done (block4 4100).
Proof.
  apply (insert_sets_valid_and_tag block4 (CacheEntry_new block4) 4100).
  - apply reach_new.
  - reflexivity.
Defined.

(** C2 (P3, match correctness): after [insert a] on an invalid entry
    constructed with [ext], [match b] returns [true] exactly when
    [ext b = ext a], for every [b]. *)
Theorem match_after_insert
        (ext : TagExtractor) (e : CacheEntry) (a b : Addr) :
  reachable ext e ->
  valid e = false ->
  eval (insert a ;; match_ b) e = Done (ext b =? ext a) /\
  (eval (insert a ;; match_ b) e = Done true <-> ext b = ext a).
Proof.
  intros Hr Hv.
  pose proof (insert_run a e) as Hi. rewrite Hv in Hi.
  rewrite (reachable_extractTag ext e Hr) in Hi.
  assert (Hm : eval (insert a ;; match_ b) e = Done (ext b =? ext a)).
  { rewrite (eval_seq _ _ _ _ _ Hi). unfold eval. rewrite match_run.
    simpl. now rewrite Z.eqb_sym. }
  split; [exact Hm|].
  rewrite Hm. split.
  - intros H. inversion H as [H']. now apply Z.eqb_eq.
  - intros H. apply Z.eqb_eq in H. now rewrite H.
Qed.

Lemma match_after_insert_witness :
  eval (insert 4100 ;; match_ 4102) (CacheEntry_new block4)
    = Done (block4 4102 =? block4 4100) /\
  (eval (insert 4100 ;; match_ 4102) (CacheEntry_new block4) = Done true
     <-> block4 4102 = block4 4100).
Proof.
  apply (match_after_insert block4 (CacheEntry_new block4) 4100 4102).
  - apply reach_new.
  - reflexivity.
Defined.

(** C3 (P6, double-insert is fatal): [insert a] aborts with
    [InvariantViolation] if and only if the entry is valid when it is
    called; on a valid entry it never completes, and on an invalid entry it
    completes and leaves the entry valid with the extracted tag. *)
Theorem insert_fails_iff_valid (e : CacheEntry) (a : Addr) :
  (insert a e = Abort InvariantViolation <-> valid e = true) /\
  insert a e =
    (if valid e then Abort InvariantViolation
     else Done (tt, mkCacheEntry (extractTag e) true (extractTag e a))).
Proof.
  split; [|apply insert_run].
  rewrite insert_run.
  destruct (valid e); split; intros H; try reflexivity; discriminate H.
Qed.

(** C4 (P4, invalidate resets): after [invalidate()] on any entry,
    [isValid()] returns [false], [getTag()] returns [MaxAddr] and
    [match b] returns [false] for every [b]. *)
Theorem invalidate_resets (e : CacheEntry) (b : Addr) :
  eval (invalidate ;; isValid) e = Done false /\
  eval (invalidate ;; getTag) e = Done MaxAddr /\
  eval (invalidate ;; match_ b) e = Done false.
Proof.
  rewrite !(eval_seq _ _ _ _ _ (invalidate_run e)).
  unfold eval. rewrite match_run. repeat split.
Qed.

(** C5 (P1, initial state): a freshly constructed entry, whatever its
    extractor, reports [isValid() = false] and [getTag() = MaxAddr], and
    [match a] is [false] for every [a]. *)
Theorem fresh_entry_invalid (ext : TagExtractor) (a : Addr) :
  eval isValid (CacheEntry_new ext) = Done false /\
  eval getTag (CacheEntry_new ext) = Done MaxAddr /\
  eval (match_ a) (CacheEntry_new ext) = Done false.
Proof.
  unfold eval. rewrite match_run. repeat split.
Qed.

(** C6 (P5, idempotent invalidate): on any entry, [invalidate()] completes,
    and calling it twice in a row leaves the same entry (valid flag and
    tag) as calling it once. *)
Theorem invalidate_idempotent (e : CacheEntry) :
  exists e1 : CacheEntry,
    exec invalidate e = Done e1 /\
    exec (invalidate ;; invalidate) e = Done e1.
Proof.
  exists (CacheEntry_new (extractTag e)). split.
  - unfold exec. now rewrite invalidate_run.
  - rewrite (exec_seq _ _ _ _ _ (invalidate_run e)).
    unfold exec. now rewrite invalidate_run.
Qed.

(** C7 (pure observers): [isValid()], [getTag()] and [match addr] complete
    on any entry and leave every member of it unchanged. *)
Theorem observers_pure (e : CacheEntry) (addr : Addr) :
  exec isValid e = Done e /\
  exec getTag e = Done e /\
  exec (match_ addr) e = Done e.
Proof.
  unfold exec. rewrite isValid_run, getTag_run, match_run. repeat split.
Qed.

(** C8 (example scenario): with [extractTag a = a >> 2], on a fresh entry,
    [insert 0x1004] gives [getTag() = 0x401] and [isValid() = true]; then
    [match 0x1006] is [true] and [match 0x1008] is [false]; after a
    following [invalidate()], [isValid()] and [match 0x1004] are [false]. *)
Theorem example_scenario :
  eval (insert 0x1004 ;;
        t <- getTag ;;
        v <- isValid ;;
        m6 <- match_ 0x1006 ;;
        m8 <- match_ 0x1008 ;;
        invalidate ;;
        v' <- isValid ;;
        m4 <- match_ 0x1004 ;;
        ret (t, v, m6, m8, v', m4))
       (CacheEntry_new block4)
  = Done (0x401, true, true, false, false, false).
Proof. vm_compute. reflexivity. Qed.

(** C9 (round-trip reset): from any entry, both [invalidate()] alone and
    the sequence [invalidate(); insert a; invalidate()] complete and leave
    exactly the entry a constructor call with the same extractor builds. *)
Theorem invalidate_restores_fresh (e : CacheEntry) (a : Addr) :
  exec invalidate e = Done (CacheEntry_new (extractTag e)) /\
  exec (invalidate ;; insert a ;; invalidate) e
    = Done (CacheEntry_new (extractTag e)).
Proof.
  split.
  - unfold exec. now rewrite invalidate_run.
  - rewrite (exec_seq _ _ _ _ _ (invalidate_run e)).
    assert (Hi : insert a (CacheEntry_new (extractTag e))
                 = Done (tt, mkCacheEntry (extractTag e) true (extractTag e a)))
      by now rewrite insert_run.
    rewrite (exec_seq _ _ _ _ _ Hi).
    unfold exec. now rewrite invalidate_run.
Qed.

(** C10 (the sentinel is not guarded): there are an extractor [ext] and an
    address [a] with [ext a = MaxAddr] such that [insert a] on any invalid
    entry built with [ext] yields a valid entry whose [getTag()] is
    [MaxAddr]; hence some reachable entry has [getTag() = MaxAddr] and
    [isValid() = true]. *)
Theorem sentinel_tag_on_valid_entry :
  exists (ext : TagExtractor) (a : Addr),
    is_addr a /\
    ext a = MaxAddr /\
    (forall e : CacheEntry,
        reachable ext e -> valid e = false ->
        eval (insert a ;; isValid) e = Done true /\
        eval (insert a ;; getTag) e = Done MaxAddr) /\
    (exists e : CacheEntry,
        reachable ext e /\
        eval getTag e = Done MaxAddr /\
        eval isValid e = Done true).
Proof.
  exists (fun x => x), MaxAddr.
  split; [unfold is_addr, MaxAddr, addr_bits; lia|].
  split; [reflexivity|].
  split.
  - intros e Hr Hv.
    pose proof (insert_run MaxAddr e) as Hi. rewrite Hv in Hi.
    rewrite (reachable_extractTag _ e Hr) in Hi.
    rewrite !(eval_seq _ _ _ _ _ Hi). split; reflexivity.
  - exists (mkCacheEntry (fun x => x) true MaxAddr).
    split; [|split; reflexivity].
    apply (reach_call _ (CallInsert MaxAddr) (CacheEntry_new (fun x => x)));
      [apply reach_new | reflexivity].
Qed.

(** ** Histories *)

Lemma perform_run (c : call) (e : CacheEntry) :
  perform c e =
  match c with
  | CallInsert a =>
      if valid e then Abort InvariantViolation
      else Done (mkCacheEntry (extractTag e) true (extractTag e a))
  | CallInvalidate => Done (CacheEntry_new (extractTag e))
  | CallIsValid | CallGetTag | CallMatch _ => Done e
  end.
Proof.
  destruct c; simpl; unfold exec.
  - now rewrite isValid_run.
  - now rewrite getTag_run.
  - now rewrite match_run.
  - rewrite insert_run. now destruct (valid e).
  - now rewrite invalidate_run.
Qed.

Lemma run_calls_holding (ext : TagExtractor) (cs : list call)
      (f : option Addr) (e : CacheEntry) :
  run_calls cs (entry_holding ext f) = Done e ->
  e = entry_holding ext (live_fill f cs).
Proof.
  revert f. induction cs as [|c cs IH]; intros f H; simpl in H.
  - now inversion H.
  - rewrite perform_run in H.
    destruct c; simpl; try (now apply IH).
    + destruct f as [a|]; simpl in H; [discriminate|].
      now apply (IH (Some addr)).
    + destruct f as [a|]; simpl in H; now apply (IH None).
Qed.

(** X1 (the reachable entries): the entries that arise from an entry
    constructed with [ext] through the public calls are exactly those that
    still carry [ext] and are either invalid with the sentinel tag or valid
    with the tag of some address. *)
Theorem reachable_characterised (ext : TagExtractor) (e : CacheEntry) :
  reachable ext e <->
  extractTag e = ext /\
  (if valid e then exists a : Addr, tag e = ext a else tag e = MaxAddr).
Proof.
  split.
  - induction 1 as [|c e e' _ [IHx IHt] Hc].
    + split; reflexivity.
    + rewrite perform_run in Hc.
      destruct c; try (inversion Hc; subst; now split).
      destruct (valid e); [discriminate|].
      inversion Hc; subst; simpl. split; [reflexivity|].
      now exists addr.
  - destruct e as [x v t]; simpl. intros [Hx Ht]. subst x.
    destruct v.
    + destruct Ht as [a Ht]. subst t.
      apply (reach_call ext (CallInsert a) (CacheEntry_new ext));
        [apply reach_new | reflexivity].
    + subst t. apply reach_new.
Qed.

(** X2 (no double fill): two [insert]s in a row never complete, whatever
    the entry and the two addresses: one of them fails its assertion. *)
Theorem double_insert_aborts (e : CacheEntry) (a b : Addr) :
  exec (insert a ;; insert b) e = Abort InvariantViolation.
Proof.
  unfold exec, bind. rewrite insert_run.
  destruct (valid e); [reflexivity|].
  now rewrite insert_run.
Qed.

(** X3 (replacement): on any entry, valid or not, [invalidate()] followed
    by [insert b] completes and leaves a valid entry tagged for [b]; a
    following [match c] depends on [b] and [c] only. *)
Theorem invalidate_then_insert (e : CacheEntry) (b c : Addr) :
  exec (invalidate ;; insert b) e
    = Done (mkCacheEntry (extractTag e) true (extractTag e b)) /\
  eval (invalidate ;; insert b ;; match_ c) e
    = Done (extractTag e c =? extractTag e b).
Proof.
  assert (Hi : insert b (CacheEntry_new (extractTag e))
               = Done (tt, mkCacheEntry (extractTag e) true (extractTag e b)))
    by now rewrite insert_run.
  split.
  - rewrite (exec_seq _ _ _ _ _ (invalidate_run e)).
    unfold exec. now rewrite Hi.
  - rewrite (eval_seq _ _ _ _ _ (invalidate_run e)).
    rewrite (eval_seq _ _ _ _ _ Hi).
    unfold eval. rewrite match_run. simpl. now rewrite Z.eqb_sym.
Qed.

(** X4 (the valid bit decides failure): whether a history of calls aborts,
    and the valid bit it ends with, are those of the two-state machine run
    from the entry's valid bit; tags, addresses and the extractor play no
    part. *)
Theorem run_calls_protocol (cs : list call) (e : CacheEntry) :
  valid_of (run_calls cs e) = protocol (valid e) cs.
Proof.
  revert e. induction cs as [|c cs IH]; intros e; simpl; [reflexivity|].
  rewrite perform_run.
  destruct c; simpl; try apply IH.
  destruct (valid e); [reflexivity | apply IH].
Qed.

(** X5 (observer histories): a history made of [isValid], [getTag] and
    [match] calls only completes and leaves the entry as it found it. *)
Theorem observer_history_keeps_entry (cs : list call) (e : CacheEntry) :
  forallb is_observer cs = true ->
  run_calls cs e = Done e.
Proof.
  induction cs as [|c cs IH]; simpl; [reflexivity|].
  intros H. apply andb_true_iff in H. destruct H as [Hc Hcs].
  rewrite perform_run.
  destruct c; simpl in Hc; try discriminate; now apply IH.
Qed.

Lemma observer_history_keeps_entry_witness :
  run_calls [CallIsValid; CallMatch 0x1006; CallGetTag; CallMatch 0x1008]
            (mkCacheEntry block4 true 0x401)
  = Done (mkCacheEntry block4 true 0x401).
Proof.
  apply (observer_history_keeps_entry
           [CallIsValid; CallMatch 0x1006; CallGetTag; CallMatch 0x1008]
           (mkCacheEntry block4 true 0x401)).
  reflexivity.
Defined.

(** X6 (the last fill decides the entry): after a history that completes
    on a freshly constructed entry, the entry is the one holding the fill
    that is still live: the address of the last [insert] if no
    [invalidate] followed it, and no fill otherwise. *)
Theorem history_determines_entry
        (ext : TagExtractor) (cs : list call) (e : CacheEntry) :
  run_calls cs (CacheEntry_new ext) = Done e ->
  e = entry_holding ext (live_fill None cs).
Proof. apply (run_calls_holding ext cs None e). Qed.

Lemma history_determines_entry_witness :
  mkCacheEntry block4 true 0x800 =
  entry_holding block4
    (live_fill None [CallInsert 0x1004; CallMatch 0x1006; CallInvalidate;
                     CallInvalidate; CallInsert 0x2000; CallGetTag]).
Proof.
  apply (history_determines_entry block4
           [CallInsert 0x1004; CallMatch 0x1006; CallInvalidate;
            CallInvalidate; CallInsert 0x2000; CallGetTag]
           (mkCacheEntry block4 true 0x800)).
  reflexivity.
Defined.

(** X7 (lookup after a history): after a history that completes on a
    freshly constructed entry, [match b] returns [true] exactly when a
    fill is still live and its address has the tag of [b]; with no live
    fill it returns [false], also when [ext b] is the sentinel. *)
Theorem match_after_history
        (ext : TagExtractor) (cs : list call) (e : CacheEntry) (b : Addr) :
  run_calls cs (CacheEntry_new ext) = Done e ->
  eval (match_ b) e =
  Done (match live_fill None cs with
        | Some a => ext a =? ext b
        | None => false
        end).
Proof.
  intros H. rewrite (run_calls_holding ext cs None e H).
  unfold eval. rewrite match_run.
  destruct (live_fill None cs); reflexivity.
Qed.

Lemma match_after_history_witness :
  eval (match_ 0x2003) (mkCacheEntry block4 true 0x800) =
  Done (match live_fill None [CallInsert 0x1004; CallInvalidate;
                              CallInsert 0x2000] with
        | Some a => block4 a =? block4 0x2003
        | None => false
        end).
Proof.
  apply (match_after_history block4
           [CallInsert 0x1004; CallInvalidate; CallInsert 0x2000]
           (mkCacheEntry block4 true 0x800) 0x2003).
  reflexivity.
Defined.
